(** * binder_ndk_sys: the bindgen header shim and the inclusion-order wrapper

    The repository consists of two header files,
    [binder_ndk_sys/src/types_workaround.h] and [binder_ndk_sys/src/wrapper.h].
    Both are programs of the C preprocessor: the first tests and defines
    guard macros and declares four typedef names, the second is a sequence of
    five [#include] directives.

    Each header is embedded as a function on the state of the translation
    unit, built from one combinator per directive ([#ifndef], [#ifdef]/[#else],
    [#define], [typedef], [#include]), so that the definitions below can be
    read line by line against the header text.

    What the model keeps of the C language:
    - a macro is known by its name only, the headers test macros with
      [#ifdef] and [#ifndef] and never expand them;
    - every typedef declaration is recorded, in the order of the text; a name
      may be declared again with the same type, and declaring it with another
      type is an error;
    - an [#include] of a file that is not found is a fatal error: it is
      reported and nothing is read after it;
    - the headers that the two files do not contain (the standard headers and
      the vendor header [BinderBindings.hpp]) belong to the host, which is a
      parameter of the model. *)

From stdpp Require Import base decidable strings gmap list.

Open Scope string_scope.
Open Scope list_scope.
Open Scope nat_scope.

(** * The model *)

(** ** Integer types of C and their representation on a target *)

(** The integer types spelled in the shim ([unsigned long], [long],
    [unsigned int], [int]) and the two [long long] types that host headers
    use for 64-bit sizes. *)
Inductive ctype : Set :=
  | TInt | TUInt
  | TLong | TULong
  | TLongLong | TULongLong.

#[global] Instance ctype_eq_dec : EqDecision ctype.
Proof. solve_decision. Defined.

(** The data models of the targets a binding generator is run for: 32-bit
    (ILP32), 64-bit Windows (LLP64) and 64-bit Unix or Android (LP64). *)
Inductive data_model : Set := ILP32 | LLP64 | LP64.

#[global] Instance data_model_eq_dec : EqDecision data_model.
Proof. solve_decision. Defined.

Definition pointer_bits (dm : data_model) : nat :=
  match dm with ILP32 => 32 | LLP64 | LP64 => 64 end.

Definition bits (dm : data_model) (t : ctype) : nat :=
  match t with
  | TInt | TUInt => 32
  | TLong | TULong => match dm with LP64 => 64 | ILP32 | LLP64 => 32 end
  | TLongLong | TULongLong => 64
  end.

Definition is_signed (t : ctype) : bool :=
  match t with
  | TInt | TLong | TLongLong => true
  | TUInt | TULong | TULongLong => false
  end.

(** Width in bits and signedness of an integer type on a target. *)
Definition shape (dm : data_model) (t : ctype) : nat * bool :=
  (bits dm t, is_signed t).

(** ** State of the translation unit *)

Inductive diag : Set :=
  | FileNotFound (file : string)
  | TypedefRedefinition (name : string) (previous new : ctype)
  | TagRedefinition (name : string).

#[global] Instance diag_eq_dec : EqDecision diag.
Proof. solve_decision. Defined.

(** [macros]: the macros currently defined; [typedefs]: every typedef
    declaration seen so far, oldest first; [tags]: the struct, class and enum
    definitions seen so far, which only the headers of a host make;
    [diags]: the errors reported so far. *)
Record env : Type := Env {
  macros : gset string;
  typedefs : list (string * ctype);
  tags : list string;
  diags : list diag
}.

Definition empty_env : env := Env ∅ [] [] [].

(** A file that is not found is a fatal error: the compiler stops reading
    the translation unit. The other errors are reported and reading goes on. *)
Definition is_fatal (d : diag) : bool :=
  match d with
  | FileNotFound _ => true
  | TypedefRedefinition _ _ _ | TagRedefinition _ => false
  end.

Definition halted (e : env) : bool := existsb is_fatal (diags e).

(** The effect of a piece of header text. *)
Definition Header : Type := env → env.

(** Text is processed from top to bottom: [a ;; b] is [a] followed by [b]. *)
Definition seq {S : Type} (a b : S → S) : S → S := λ s, b (a s).

Declare Scope hdr_scope.
Delimit Scope hdr_scope with hdr.
Bind Scope hdr_scope with Header.
Notation "a ;; b" := (seq a%hdr b%hdr)
  (at level 100, b at level 200, right associativity) : hdr_scope.

(** ** Directives *)

Definition report (d : diag) : Header :=
  λ e, Env (macros e) (typedefs e) (tags e) (diags e ++ [d]).

(** [#define m] *)
Definition define (m : string) : Header :=
  λ e, Env ({[ m ]} ∪ macros e) (typedefs e) (tags e) (diags e).

(** [#ifndef m] body [#endif] *)
Definition ifndef (m : string) (body : Header) : Header :=
  λ e, if decide (m ∈ macros e) then e else body e.

(** [#ifdef m] yes [#else] no [#endif] *)
Definition ifdef_else (m : string) (yes no : Header) : Header :=
  λ e, if decide (m ∈ macros e) then yes e else no e.

(** The type a name stands for: that of its first declaration, the rule of
    a C++ front end, C++ being the language of the vendor header. Front ends
    differ on this only for a name that already has two declarations of
    different types, which is an error reported before. *)
Fixpoint lookup_typedef (name : string) (ds : list (string * ctype)) : option ctype :=
  match ds with
  | [] => None
  | (n, t) :: ds' => if decide (n = name) then Some t else lookup_typedef name ds'
  end.

(** [typedef t name;] Declaring a typedef name again with the type it
    already has is allowed (C11 6.7p3, C++ [dcl.typedef]); declaring it with
    another type is an error. *)
Definition typedef (t : ctype) (name : string) : Header :=
  λ e,
    let e' := Env (macros e) (typedefs e ++ [(name, t)]) (tags e) (diags e) in
    match lookup_typedef name (typedefs e) with
    | None => e'
    | Some t0 => if decide (t0 = t) then e' else report (TypedefRedefinition name t0 t) e'
    end.

(** [struct name { ... };], [enum name { ... };]: a tag may be defined once. *)
Definition define_tag (name : string) : Header :=
  λ e,
    let e' := Env (macros e) (typedefs e) (tags e ++ [name]) (diags e) in
    if decide (name ∈ tags e) then report (TagRedefinition name) e' else e'.

(** ** types_workaround.h *)

Definition types_workaround_h : Header :=
  ifndef "TYPES_WORKAROUND_H" (
    define "TYPES_WORKAROUND_H" ;;
    ifndef "_SIZE_T_DEFINED" (
      define "_SIZE_T_DEFINED" ;;
      ifdef_else "__LP64__"
        (typedef TULong "size_t" ;;
         typedef TLong "ssize_t")
        (typedef TUInt "size_t" ;;
         typedef TInt "ssize_t")) ;;
    ifndef "_STDINT_H" (
      typedef TUInt "uint32_t" ;;
      typedef TInt "int32_t")).

(** The two guarded blocks of the shim, lines 7-16 and 18-21. *)
Definition size_block : Header :=
  ifndef "_SIZE_T_DEFINED" (
    define "_SIZE_T_DEFINED" ;;
    ifdef_else "__LP64__"
      (typedef TULong "size_t" ;;
       typedef TLong "ssize_t")
      (typedef TUInt "size_t" ;;
       typedef TInt "ssize_t")).

Definition stdint_block : Header :=
  ifndef "_STDINT_H" (
    typedef TUInt "uint32_t" ;;
    typedef TInt "int32_t").

(** ** The host: the headers the generator can find *)

(** [#include <f>] searches the system directories, [#include "f"] the
    directory of the including file first. A header that is found is given
    by the effect of its text. *)
Inductive include_form : Set := Angled | Quoted.

#[global] Instance include_form_eq_dec : EqDecision include_form.
Proof. solve_decision. Defined.

Record host : Type := Host {
  system_headers : string → option Header;
  local_headers : string → option Header
}.

Definition resolve (h : host) (form : include_form) (file : string) : option Header :=
  match form with
  | Angled => system_headers h file
  | Quoted =>
      match local_headers h file with
      | Some body => Some body
      | None => system_headers h file
      end
  end.

(** What an [#include] line does to the declarations: nothing once a fatal
    error has stopped the reading; otherwise the text of the file, or the
    fatal file-not-found error. *)
Definition include_effect (h : host) (form : include_form) (file : string) : Header :=
  λ e,
    if halted e then e
    else match resolve h form file with
         | Some body => body e
         | None => report (FileNotFound file) e
         end.

(** A file under study is followed together with the list of its own
    [#include] lines, in the order of its text; what is read of the named
    files shows in [tu_env]. *)
Record tu : Type := TU {
  tu_env : env;
  included : list (include_form * string)
}.

Definition File : Type := tu → tu.
Bind Scope hdr_scope with File.

Definition start (e : env) : tu := TU e [].

Definition include (h : host) (form : include_form) (file : string) : File :=
  λ u, TU (include_effect h form file (tu_env u)) (included u ++ [(form, file)]).

(** ** wrapper.h *)

Definition wrapper_h (h : host) : File :=
  include h Angled "stddef.h" ;;
  include h Angled "stdbool.h" ;;
  include h Angled "stdint.h" ;;
  include h Angled "sys/types.h" ;;
  include h Quoted "BinderBindings.hpp".

(** The part of [wrapper_h] read before the vendor header, lines 6-9. *)
Definition wrapper_before_vendor (h : host) : File :=
  include h Angled "stddef.h" ;;
  include h Angled "stdbool.h" ;;
  include h Angled "stdint.h" ;;
  include h Angled "sys/types.h".

(** The [#include] lines of wrapper.h, top to bottom. *)
Definition wrapper_includes : list (include_form * string) :=
  [(Angled, "stddef.h"); (Angled, "stdbool.h"); (Angled, "stdint.h");
   (Angled, "sys/types.h"); (Quoted, "BinderBindings.hpp")].

Definition standard_headers : list string :=
  ["stdint.h"; "stdbool.h"; "stddef.h"; "sys/types.h"].

(** The effects of a list of [#include] lines, one after the other. *)
Definition effects (h : host) (incs : list (include_form * string)) : Header :=
  λ e, foldl (λ e' inc, include_effect h inc.1 inc.2 e') e incs.

(** ** Observations on a state *)

Definition shim_names : list string := ["size_t"; "ssize_t"; "uint32_t"; "int32_t"].

(** The guard macro the shim tests before declaring a name. *)
Definition guard_of (name : string) : string :=
  if decide (name = "size_t") then "_SIZE_T_DEFINED"
  else if decide (name = "ssize_t") then "_SIZE_T_DEFINED"
  else "_STDINT_H".

Definition defined (name : string) (e : env) : Prop :=
  is_Some (lookup_typedef name (typedefs e)).

#[global] Instance defined_dec name e : Decision (defined name e).
Proof. unfold defined. apply _. Defined.

(** Number of typedef declarations of [name] in the translation unit. *)
Definition declarations (name : string) (e : env) : nat :=
  length (filter (λ d, d.1 = name) (typedefs e)).

(** What a header adds to the declarations and to the errors of a state. *)
Definition new_typedefs (h : Header) (e : env) : list (string * ctype) :=
  drop (length (typedefs e)) (typedefs (h e)).

Definition new_diags (h : Header) (e : env) : list diag :=
  drop (length (diags e)) (diags (h e)).

(** The files a file includes itself when it is read in state [u]. *)
Definition new_includes (f : File) (u : tu) : list (include_form * string) :=
  drop (length (included u)) (included (f u)).

Definition is_redefinition (d : diag) : bool :=
  match d with
  | FileNotFound _ => false
  | TypedefRedefinition _ _ _ | TagRedefinition _ => true
  end.

Definition redefinitions (e : env) : list diag :=
  filter (λ d, is_redefinition d = true) (diags e).

(** The error, if any, that declaring [d] raises against the declarations [ds]. *)
Definition clash_of (ds : list (string * ctype)) (d : string * ctype) : list diag :=
  match lookup_typedef d.1 ds with
  | None => []
  | Some t0 => if decide (t0 = d.2) then [] else [TypedefRedefinition d.1 t0 d.2]
  end.

(** ** What the shim declares, told from the state it is read in *)

(** The declarations the shim makes when it is read in state [e] for the
    first time. *)
Definition size_decls (e : env) : list (string * ctype) :=
  if decide ("_SIZE_T_DEFINED" ∈ macros e) then []
  else if decide ("__LP64__" ∈ macros e)
       then [("size_t", TULong); ("ssize_t", TLong)]
       else [("size_t", TUInt); ("ssize_t", TInt)].

Definition stdint_decls (e : env) : list (string * ctype) :=
  if decide ("_STDINT_H" ∈ macros e) then []
  else [("uint32_t", TUInt); ("int32_t", TInt)].

Definition shim_decls (e : env) : list (string * ctype) :=
  size_decls e ++ stdint_decls e.

Definition shim_macros (e : env) : gset string :=
  if decide ("_SIZE_T_DEFINED" ∈ macros e)
  then {[ "TYPES_WORKAROUND_H" ]} ∪ macros e
  else {[ "_SIZE_T_DEFINED" ]} ∪ ({[ "TYPES_WORKAROUND_H" ]} ∪ macros e).

(** The type the shim's typedef lines give to a name. *)
Definition shim_type (e : env) (name : string) : ctype :=
  if decide (name = "size_t")
  then (if decide ("__LP64__" ∈ macros e) then TULong else TUInt)
  else if decide (name = "ssize_t")
  then (if decide ("__LP64__" ∈ macros e) then TLong else TInt)
  else if decide (name = "uint32_t") then TUInt
  else TInt.

(** ** Conditions on states, headers and hosts *)

(** [__LP64__] is predefined by the compiler exactly on targets whose [long]
    and pointers are 64 bits wide. *)
Definition lp64_macro_agrees (dm : data_model) (e : env) : Prop :=
  "__LP64__" ∈ macros e ↔ dm = LP64.

(** The guard macros tell which of the four names are declared. *)
Definition guards_faithful (e : env) : Prop :=
  ∀ name, name ∈ shim_names → guard_of name ∈ macros e ↔ defined name e.

(** [e'] has the macros, typedef declarations, tags and redefinition errors
    of [e]. *)
Definition same_declarations (e e' : env) : Prop :=
  macros e' = macros e ∧ typedefs e' = typedefs e ∧ tags e' = tags e
  ∧ redefinitions e' = redefinitions e.

(** A header undefines no macro. *)
Definition grows (b : Header) : Prop := ∀ e, macros e ⊆ macros (b e).

(** A header is protected against repeated inclusion: once it has been
    read, reading it again in a state that still has the macros it left
    defined changes no macro, declaration or tag and reports no
    redefinition. *)
Definition reincludable (b : Header) : Prop :=
  grows b ∧ ∀ e e', macros (b e) ⊆ macros e' → same_declarations e' (b e').

Definition lacks_standard_headers (h : host) : Prop :=
  ∀ f, f ∈ standard_headers → system_headers h f = None.

(** A header of a host that declares one name under an include guard:
    [#ifndef g], [#define g], [typedef t name;], [#endif]. *)
Definition guarded_typedef (g : string) (t : ctype) (name : string) : Header :=
  ifndef g (define g ;; typedef t name).

(** A header reports no fatal error of its own. *)
Definition keeps_going (b : Header) : Prop :=
  ∀ e, halted e = false → halted (b e) = false.

(** ** States and hosts used as examples *)

Definition complete_headers_env : env :=
  Env {[ "_SIZE_T_DEFINED"; "_STDINT_H"; "__LP64__" ]}
      [("size_t", TULong); ("ssize_t", TLong); ("uint32_t", TUInt); ("int32_t", TInt)]
      [] [].

(** A state in which only the shim's own guard is defined, as when the
    generator is run with [-DTYPES_WORKAROUND_H]. *)
Definition own_guard_only_env : env := Env {[ "TYPES_WORKAROUND_H" ]} [] [] [].

Definition fresh_lp64_env : env := Env {[ "__LP64__" ]} [] [] [].

(** The shim's own guard is defined and [size_t] is the 64-bit
    [unsigned long long] of a host header that does not define
    [_SIZE_T_DEFINED]. *)
Definition skipped_conflict_env : env :=
  Env {[ "TYPES_WORKAROUND_H" ]} [("size_t", TULongLong)] [] [].

(** [size_t] declared as [unsigned long long] by a host header whose guard
    is not [_SIZE_T_DEFINED]. *)
Definition foreign_size_t_env : env := Env ∅ [("size_t", TULongLong)] [] [].

(** On a host whose headers declare [size_t] under [_SIZE_T_DEFINED] and do
    not declare [ssize_t]. *)
Definition size_t_only_env : env :=
  Env {[ "_SIZE_T_DEFINED" ]} [("size_t", TULongLong)] [] [].

(** [size_t] declared by a header that defines another guard macro. *)
Definition unguarded_size_t_env : env := Env ∅ [("size_t", TUInt)] [] [].

(** A partial set of standard headers: [stdint.h] has been read. *)
Definition stdint_only_env : env :=
  Env {[ "_STDINT_H" ]} [("uint32_t", TUInt); ("int32_t", TInt)] [] [].

(** Hosts used as examples. The standard headers of [guarded_host] carry
    include guards; its vendor header is [vendor], which declares a tag. *)
Definition stddef_h : Header :=
  ifndef "_STDDEF_H" (define "_STDDEF_H" ;; typedef TULong "size_t").

Definition stdbool_h : Header :=
  ifndef "_STDBOOL_H" (define "_STDBOOL_H" ;; define "bool").

Definition stdint_h : Header :=
  ifndef "_STDINT_H" (
    define "_STDINT_H" ;;
    typedef TUInt "uint32_t" ;;
    typedef TInt "int32_t").

Definition sys_types_h : Header :=
  ifndef "_SYS_TYPES_H" (define "_SYS_TYPES_H" ;; typedef TLong "ssize_t").

Definition guarded_vendor_hpp : Header :=
  ifndef "VENDOR_HPP" (define "VENDOR_HPP" ;; define_tag "vendor_tag").

Definition unguarded_vendor_hpp : Header := define_tag "vendor_tag".

Definition host_with (vendor : Header) : host :=
  Host (λ f, if decide (f = "stddef.h") then Some stddef_h
             else if decide (f = "stdbool.h") then Some stdbool_h
             else if decide (f = "stdint.h") then Some stdint_h
             else if decide (f = "sys/types.h") then Some sys_types_h
             else None)
       (λ f, if decide (f = "BinderBindings.hpp") then Some vendor else None).

Definition guarded_host : host := host_with guarded_vendor_hpp.
Definition unguarded_vendor_host : host := host_with unguarded_vendor_hpp.

(** A host that has [stddef.h] and [stdbool.h] but neither [stdint.h] nor
    [sys/types.h]. *)
Definition partial_host : host :=
  Host (λ f, if decide (f = "stddef.h") then Some stddef_h
             else if decide (f = "stdbool.h") then Some stdbool_h
             else None)
       (λ f, if decide (f = "BinderBindings.hpp") then Some guarded_vendor_hpp else None).

(** A host without standard headers: only the vendor header is found. *)
Definition vendor_only_host : host :=
  Host (λ _, None)
       (λ f, if decide (f = "BinderBindings.hpp") then Some guarded_vendor_hpp else None).

(** * Properties *)

(** ** The two headers on small inputs *)

Example shim_on_empty :
  typedefs (types_workaround_h empty_env)
  = [("size_t", TUInt); ("ssize_t", TInt); ("uint32_t", TUInt); ("int32_t", TInt)].
Proof. vm_compute. reflexivity. Qed.

Example shim_on_empty_macros :
  macros (types_workaround_h empty_env) = {[ "TYPES_WORKAROUND_H"; "_SIZE_T_DEFINED" ]}.
Proof. vm_compute. reflexivity. Qed.

Example wrapper_before_vendor_prefix h u :
  wrapper_h h u = include h Quoted "BinderBindings.hpp" (wrapper_before_vendor h u).
Proof. reflexivity. Qed.

(** ** What the directives do to each component of the state *)

Lemma typedef_unfold t name e :
  typedef t name e
  = Env (macros e) (typedefs e ++ [(name, t)]) (tags e)
        (diags e ++ clash_of (typedefs e) (name, t)).
Proof.
  unfold typedef, clash_of, report; simpl.
  destruct (lookup_typedef name (typedefs e)) as [t0|]; [case_decide|];
    simpl; by rewrite ?app_nil_r.
Qed.

Lemma lookup_typedef_app name ds ds' :
  lookup_typedef name (ds ++ ds')
  = match lookup_typedef name ds with
    | Some t => Some t
    | None => lookup_typedef name ds'
    end.
Proof.
  induction ds as [|[n t] ds IH]; simpl; [by destruct (lookup_typedef name ds')|].
  by case_decide.
Qed.

Lemma lookup_typedef_snoc_ne name n t ds :
  n ≠ name → lookup_typedef name (ds ++ [(n, t)]) = lookup_typedef name ds.
Proof.
  intros Hne. rewrite lookup_typedef_app. simpl.
  rewrite decide_False by done. by destruct (lookup_typedef name ds).
Qed.

Lemma clash_of_snoc_ne ds n t d :
  n ≠ d.1 → clash_of (ds ++ [(n, t)]) d = clash_of ds d.
Proof. intros Hne. unfold clash_of. by rewrite lookup_typedef_snoc_ne. Qed.

(** Where the declarations of a name agree, the name stands for their
    common type, whichever of them is looked at. *)
Lemma lookup_typedef_agreeing name t ds :
  (∀ t1 t2, (name, t1) ∈ ds → (name, t2) ∈ ds → t1 = t2) →
  (name, t) ∈ ds → lookup_typedef name ds = Some t.
Proof.
  induction ds as [|[n t'] ds IH]; intros Hagree Hin; [by apply elem_of_nil in Hin|].
  simpl. case_decide as Hn.
  - subst n. f_equal. apply Hagree; [left | done].
  - apply elem_of_cons in Hin as [Heq|Hin]; [by simplify_eq|].
    apply IH; [|done]. intros t1 t2 H1 H2. apply Hagree; by right.
Qed.

Lemma lookup_typedef_None name ds :
  lookup_typedef name ds = None ↔ filter (λ d, d.1 = name) ds = [].
Proof.
  induction ds as [|[n t] ds IH]; simpl; [done|].
  rewrite filter_cons; simpl. case_decide; [done | apply IH].
Qed.

Lemma defined_declarations name e :
  defined name e ↔ 0 < declarations name e.
Proof.
  unfold defined, declarations.
  destruct (lookup_typedef name (typedefs e)) as [t|] eqn:Hl.
  - split; [intros _ | by eauto].
    destruct (filter _ _) eqn:Hf; [|simpl; lia].
    apply lookup_typedef_None in Hf. congruence.
  - apply lookup_typedef_None in Hl as ->. simpl.
    split; [intros [? ?]; done | lia].
Qed.

(** ** The shim, component by component *)

Lemma shim_skipped e :
  "TYPES_WORKAROUND_H" ∈ macros e → types_workaround_h e = e.
Proof. intros Hin. unfold types_workaround_h, ifndef. by rewrite decide_True. Qed.

Lemma shim_blocks e :
  "TYPES_WORKAROUND_H" ∉ macros e →
  types_workaround_h e = stdint_block (size_block (define "TYPES_WORKAROUND_H" e)).
Proof. intros Hin. unfold types_workaround_h, ifndef at 1. by rewrite decide_False. Qed.

Lemma elem_of_define m m' e :
  m ∈ macros (define m' e) ↔ m = m' ∨ m ∈ macros e.
Proof. unfold define; simpl. by rewrite elem_of_union, elem_of_singleton. Qed.

Lemma env_eta e : Env (macros e) (typedefs e) (tags e) (diags e) = e.
Proof. by destruct e. Qed.

Lemma size_block_unfold e :
  size_block e
  = Env (if decide ("_SIZE_T_DEFINED" ∈ macros e)
         then macros e else {[ "_SIZE_T_DEFINED" ]} ∪ macros e)
        (typedefs e ++ size_decls e) (tags e)
        (diags e ++ flat_map (clash_of (typedefs e)) (size_decls e)).
Proof.
  unfold size_block, size_decls, ifndef, ifdef_else, seq.
  destruct (decide ("_SIZE_T_DEFINED" ∈ macros e)) as [Hsz|Hsz].
  { simpl. by rewrite !app_nil_r, env_eta. }
  assert (Hlp : ∀ (x y : env),
    (if decide ("__LP64__" ∈ macros (define "_SIZE_T_DEFINED" e)) then x else y)
    = if decide ("__LP64__" ∈ macros e) then x else y).
  { intros x y. apply decide_ext. rewrite elem_of_define. intuition discriminate. }
  rewrite Hlp. destruct (decide ("__LP64__" ∈ macros e)); rewrite !typedef_unfold; simpl;
    rewrite clash_of_snoc_ne, app_nil_r, <- !app_assoc by done; done.
Qed.

Lemma stdint_block_unfold e :
  stdint_block e
  = Env (macros e) (typedefs e ++ stdint_decls e) (tags e)
        (diags e ++ flat_map (clash_of (typedefs e)) (stdint_decls e)).
Proof.
  unfold stdint_block, stdint_decls, ifndef, seq.
  destruct (decide ("_STDINT_H" ∈ macros e)) as [Hsi|Hsi].
  { simpl. by rewrite !app_nil_r, env_eta. }
  rewrite !typedef_unfold; simpl.
  rewrite clash_of_snoc_ne, app_nil_r, <- !app_assoc by done; done.
Qed.

Lemma size_decls_ext e e' :
  ("_SIZE_T_DEFINED" ∈ macros e' ↔ "_SIZE_T_DEFINED" ∈ macros e) →
  ("__LP64__" ∈ macros e' ↔ "__LP64__" ∈ macros e) →
  size_decls e' = size_decls e.
Proof.
  intros Hsz Hlp. unfold size_decls.
  rewrite (decide_ext _ _ _ _ Hsz). by rewrite (decide_ext _ _ _ _ Hlp).
Qed.

Lemma stdint_decls_ext e e' :
  ("_STDINT_H" ∈ macros e' ↔ "_STDINT_H" ∈ macros e) →
  stdint_decls e' = stdint_decls e.
Proof. intros Hsi. unfold stdint_decls. by rewrite (decide_ext _ _ _ _ Hsi). Qed.

Lemma flat_map_ext_elem {A B : Type} (f g : A → list B) (l : list A) :
  (∀ x, x ∈ l → f x = g x) → flat_map f l = flat_map g l.
Proof.
  induction l as [|x l IH]; intros Hfg; simpl; [done|].
  rewrite Hfg by left. f_equal. apply IH. intros y Hy. apply Hfg. by right.
Qed.

Lemma clash_of_size_decls_stdint ds e d :
  d ∈ stdint_decls e →
  clash_of (ds ++ size_decls e) d = clash_of ds d.
Proof.
  intros Hd. unfold clash_of. rewrite lookup_typedef_app.
  destruct (lookup_typedef d.1 ds) as [t|] eqn:Hl; [done|].
  replace (lookup_typedef d.1 (size_decls e)) with (@None ctype); [done|].
  unfold stdint_decls in Hd. unfold size_decls.
  destruct (decide ("_STDINT_H" ∈ macros e)); [by apply elem_of_nil in Hd|].
  apply list_elem_of_In in Hd. simpl in Hd.
  destruct Hd as [<-|[<-|[]]]; by repeat case_decide.
Qed.

Lemma shim_first_time e :
  "TYPES_WORKAROUND_H" ∉ macros e →
  types_workaround_h e
  = Env (shim_macros e) (typedefs e ++ shim_decls e) (tags e)
        (diags e ++ flat_map (clash_of (typedefs e)) (shim_decls e)).
Proof.
  intros Hin. rewrite shim_blocks by done.
  set (e1 := define "TYPES_WORKAROUND_H" e).
  assert (Hmac : ∀ m, m ≠ "TYPES_WORKAROUND_H" → m ∈ macros e1 ↔ m ∈ macros e).
  { intros m Hm. subst e1. rewrite elem_of_define. intuition. }
  rewrite stdint_block_unfold.
  rewrite (stdint_decls_ext e).
  2:{ rewrite size_block_unfold; simpl.
      case_decide; rewrite ?elem_of_union, ?elem_of_singleton; intuition discriminate. }
  rewrite size_block_unfold; simpl.
  rewrite (size_decls_ext e e1) by (refine (Hmac _ _); done).
  unfold shim_decls, shim_macros.
  rewrite flat_map_app, <- !app_assoc. f_equal.
  - apply decide_ext. refine (Hmac _ _). done.
  - do 2 f_equal. apply flat_map_ext_elem. intros d Hd.
    by apply clash_of_size_decls_stdint.
Qed.

Lemma shim_defines_own_guard e :
  "TYPES_WORKAROUND_H" ∈ macros (types_workaround_h e).
Proof.
  destruct (decide ("TYPES_WORKAROUND_H" ∈ macros e)) as [Hin|Hin].
  - by rewrite shim_skipped.
  - rewrite shim_first_time by done. unfold shim_macros; simpl.
    case_decide; rewrite ?elem_of_union, !elem_of_singleton; auto.
Qed.

Lemma shim_macros_spec e m :
  m ∈ macros (types_workaround_h e)
  ↔ m ∈ macros e
    ∨ (("TYPES_WORKAROUND_H" ∉ macros e)
       ∧ (m = "TYPES_WORKAROUND_H" ∨ m = "_SIZE_T_DEFINED")).
Proof.
  destruct (decide ("TYPES_WORKAROUND_H" ∈ macros e)) as [Hin|Hin].
  - rewrite shim_skipped by done. intuition.
  - rewrite shim_first_time by done. unfold shim_macros; simpl.
    case_decide; rewrite ?elem_of_union, !elem_of_singleton;
      intuition (subst; auto).
Qed.

(** ** Properties of types_workaround.h *)

(** C9. Reading the shim twice in succession leaves the same state as
    reading it once: the first pass defines [TYPES_WORKAROUND_H] and the
    second pass is skipped by that guard. *)
Theorem shim_idempotent (e : env) :
  types_workaround_h (types_workaround_h e) = types_workaround_h e
  ∧ "TYPES_WORKAROUND_H" ∈ macros (types_workaround_h e).
Proof.
  split; [|apply shim_defines_own_guard].
  apply shim_skipped, shim_defines_own_guard.
Qed.

(** C5. When both [_SIZE_T_DEFINED] and [_STDINT_H] are defined, as after
    a complete set of standard headers, the shim declares nothing: all
    typedef declarations, tags and errors are as before, every name keeps
    the type it had, and the only macro that can be new is the shim's own
    guard. *)
Theorem shim_suppressed_by_guards (e : env) :
  "_SIZE_T_DEFINED" ∈ macros e →
  "_STDINT_H" ∈ macros e →
  typedefs (types_workaround_h e) = typedefs e
  ∧ new_typedefs types_workaround_h e = []
  ∧ new_diags types_workaround_h e = []
  ∧ diags (types_workaround_h e) = diags e
  ∧ tags (types_workaround_h e) = tags e
  ∧ (∀ name, lookup_typedef name (typedefs (types_workaround_h e))
             = lookup_typedef name (typedefs e))
  ∧ macros (types_workaround_h e) = {[ "TYPES_WORKAROUND_H" ]} ∪ macros e.
Proof.
  intros Hsz Hsi.
  assert (Hsame : typedefs (types_workaround_h e) = typedefs e
                  ∧ diags (types_workaround_h e) = diags e
                  ∧ tags (types_workaround_h e) = tags e
                  ∧ macros (types_workaround_h e) = {[ "TYPES_WORKAROUND_H" ]} ∪ macros e).
  { destruct (decide ("TYPES_WORKAROUND_H" ∈ macros e)) as [Hin|Hin].
    - rewrite shim_skipped by done. repeat split.
      apply set_eq. intros m. rewrite elem_of_union, elem_of_singleton.
      intuition (subst; auto).
    - rewrite shim_first_time by done.
      unfold shim_decls, shim_macros, size_decls, stdint_decls; simpl.
      rewrite !decide_True by done. simpl. by rewrite !app_nil_r. }
  destruct Hsame as (Ht & Hd & Hg & Hm).
  unfold new_typedefs, new_diags. rewrite Ht, Hd, !drop_all. done.
Qed.

Lemma shim_suppressed_by_guards_witness :
  typedefs (types_workaround_h complete_headers_env) = typedefs complete_headers_env
  ∧ new_typedefs types_workaround_h complete_headers_env = []
  ∧ new_diags types_workaround_h complete_headers_env = []
  ∧ diags (types_workaround_h complete_headers_env) = diags complete_headers_env
  ∧ tags (types_workaround_h complete_headers_env) = tags complete_headers_env
  ∧ (∀ name, lookup_typedef name (typedefs (types_workaround_h complete_headers_env))
             = lookup_typedef name (typedefs complete_headers_env))
  ∧ macros (types_workaround_h complete_headers_env)
    = {[ "TYPES_WORKAROUND_H" ]} ∪ macros complete_headers_env.
Proof.
  apply (shim_suppressed_by_guards complete_headers_env); vm_compute; reflexivity.
Defined.

(** C10, as stated, fails: with [_STDINT_H] undefined but the shim's own
    guard already defined, the shim is skipped and [_SIZE_T_DEFINED] is not
    defined afterwards. *)
Lemma shim_bookkeeping_counterexample :
  ¬ ("_STDINT_H" ∉ macros own_guard_only_env →
     ("_STDINT_H" ∉ macros (types_workaround_h own_guard_only_env))
     ∧ "_SIZE_T_DEFINED" ∈ macros (types_workaround_h own_guard_only_env)).
Proof.
  intros Hclaim.
  assert (Hnot : "_SIZE_T_DEFINED" ∉ macros (types_workaround_h own_guard_only_env)).
  { vm_compute. discriminate. }
  apply Hnot, Hclaim. vm_compute. discriminate.
Qed.

(** C10, amended. For every state with [_STDINT_H] undefined, [_STDINT_H] is
    still undefined after the shim; and when the shim's own guard
    [TYPES_WORKAROUND_H] is undefined too, so that its body is read, the shim
    declares [uint32_t] and [int32_t] without defining [_STDINT_H], while
    [_SIZE_T_DEFINED] is defined afterwards. *)
Theorem shim_guard_bookkeeping (e : env) :
  "_STDINT_H" ∉ macros e →
  ("_STDINT_H" ∉ macros (types_workaround_h e))
  ∧ ("TYPES_WORKAROUND_H" ∉ macros e →
     "_SIZE_T_DEFINED" ∈ macros (types_workaround_h e)
     ∧ defined "uint32_t" (types_workaround_h e)
     ∧ defined "int32_t" (types_workaround_h e)).
Proof.
  intros Hsi. split.
  - rewrite shim_macros_spec. intuition discriminate.
  - intros Hin. split; [rewrite shim_macros_spec; by eauto|].
    rewrite shim_first_time by done. unfold defined, shim_decls, stdint_decls; simpl.
    rewrite decide_False by done.
    rewrite !lookup_typedef_app; simpl.
    split.
    + destruct (lookup_typedef "uint32_t" (typedefs e)); [by eauto|].
      destruct (lookup_typedef "uint32_t" (size_decls e)); by eauto.
    + destruct (lookup_typedef "int32_t" (typedefs e)); [by eauto|].
      destruct (lookup_typedef "int32_t" (size_decls e)); by eauto.
Qed.

Lemma shim_guard_bookkeeping_witness :
  ("_STDINT_H" ∉ macros (types_workaround_h empty_env))
  ∧ ("TYPES_WORKAROUND_H" ∉ macros empty_env →
     "_SIZE_T_DEFINED" ∈ macros (types_workaround_h empty_env)
     ∧ defined "uint32_t" (types_workaround_h empty_env)
     ∧ defined "int32_t" (types_workaround_h empty_env)).
Proof.
  apply (shim_guard_bookkeeping empty_env). vm_compute. discriminate.
Defined.

(** *** Widths of the declared types *)

Lemma shim_new_typedefs e :
  "TYPES_WORKAROUND_H" ∉ macros e →
  new_typedefs types_workaround_h e = shim_decls e.
Proof.
  intros Hin. unfold new_typedefs. rewrite shim_first_time by done. simpl.
  by rewrite drop_app_length.
Qed.

Lemma shim_new_diags e :
  "TYPES_WORKAROUND_H" ∉ macros e →
  new_diags types_workaround_h e = flat_map (clash_of (typedefs e)) (shim_decls e).
Proof.
  intros Hin. unfold new_diags. rewrite shim_first_time by done. simpl.
  by rewrite drop_app_length.
Qed.

Lemma shim_new_diags_skipped e :
  "TYPES_WORKAROUND_H" ∈ macros e → new_diags types_workaround_h e = [].
Proof.
  intros Hin. unfold new_diags. rewrite shim_skipped by done. apply drop_all.
Qed.

(** C4. When the three guard macros are undefined, the shim declares, in
    this order, [size_t] and [ssize_t] as the unsigned and the signed integer
    of 64 bits if [__LP64__] is defined and of 32 bits otherwise, and
    [uint32_t] and [int32_t] as the unsigned and the signed integer of 32
    bits whatever [__LP64__] is. *)
Theorem shim_declared_widths (dm : data_model) (e : env) :
  lp64_macro_agrees dm e →
  "TYPES_WORKAROUND_H" ∉ macros e →
  "_SIZE_T_DEFINED" ∉ macros e →
  "_STDINT_H" ∉ macros e →
  prod_map id (shape dm) <$> new_typedefs types_workaround_h e
  = [("size_t", (if decide ("__LP64__" ∈ macros e) then 64 else 32, false));
     ("ssize_t", (if decide ("__LP64__" ∈ macros e) then 64 else 32, true));
     ("uint32_t", (32, false));
     ("int32_t", (32, true))].
Proof.
  intros Hlp Hin Hsz Hsi. rewrite shim_new_typedefs by done.
  unfold shim_decls, size_decls, stdint_decls.
  rewrite (decide_False (P := "_SIZE_T_DEFINED" ∈ macros e)) by done.
  rewrite (decide_False (P := "_STDINT_H" ∈ macros e)) by done.
  destruct (decide ("__LP64__" ∈ macros e)) as [Hyes|Hno].
  - apply Hlp in Hyes as ->. reflexivity.
  - by destruct dm; [| |exfalso; apply Hno, Hlp].
Qed.

Lemma shim_declared_widths_witness :
  prod_map id (shape LP64) <$> new_typedefs types_workaround_h fresh_lp64_env
  = [("size_t", (64, false)); ("ssize_t", (64, true));
     ("uint32_t", (32, false)); ("int32_t", (32, true))]
  ∧ prod_map id (shape ILP32) <$> new_typedefs types_workaround_h empty_env
    = [("size_t", (32, false)); ("ssize_t", (32, true));
       ("uint32_t", (32, false)); ("int32_t", (32, true))].
Proof.
  split.
  - apply (shim_declared_widths LP64 fresh_lp64_env).
    + split; [reflexivity | intros _; vm_compute; reflexivity].
    + vm_compute. discriminate.
    + vm_compute. discriminate.
    + vm_compute. discriminate.
  - apply (shim_declared_widths ILP32 empty_env).
    + split; [vm_compute; discriminate | discriminate].
    + vm_compute. discriminate.
    + vm_compute. discriminate.
    + vm_compute. discriminate.
Defined.

(** On 64-bit Windows (LLP64) [__LP64__] is not predefined: the [size_t] of
    the shim has 32 bits there, while pointers have 64. *)
Remark shim_size_t_on_llp64 (e : env) :
  lp64_macro_agrees LLP64 e →
  "TYPES_WORKAROUND_H" ∉ macros e →
  "_SIZE_T_DEFINED" ∉ macros e →
  ∃ t, ("size_t", t) ∈ new_typedefs types_workaround_h e
       ∧ bits LLP64 t = 32 ∧ pointer_bits LLP64 = 64.
Proof.
  intros Hlp Hin Hsz. exists TUInt. rewrite shim_new_typedefs by done.
  unfold shim_decls, size_decls. rewrite decide_False by done.
  rewrite decide_False by (intros Hyes; by apply Hlp in Hyes).
  repeat split. rewrite elem_of_app. left. left.
Qed.

(** *** Errors raised by the shim *)

Lemma elem_of_shim_names name :
  name ∈ shim_names
  ↔ name = "size_t" ∨ name = "ssize_t" ∨ name = "uint32_t" ∨ name = "int32_t".
Proof.
  unfold shim_names. rewrite !elem_of_cons, elem_of_nil. tauto.
Qed.

Lemma guard_of_size_t : guard_of "size_t" = "_SIZE_T_DEFINED".
Proof. reflexivity. Qed.

Lemma guard_of_ssize_t : guard_of "ssize_t" = "_SIZE_T_DEFINED".
Proof. reflexivity. Qed.

Lemma guard_of_uint32_t : guard_of "uint32_t" = "_STDINT_H".
Proof. reflexivity. Qed.

Lemma guard_of_int32_t : guard_of "int32_t" = "_STDINT_H".
Proof. reflexivity. Qed.

Ltac simpl_guard_of :=
  repeat first
    [ rewrite guard_of_size_t in * | rewrite guard_of_ssize_t in *
    | rewrite guard_of_uint32_t in * | rewrite guard_of_int32_t in * ].

Lemma shim_decls_spec e name t :
  (name, t) ∈ shim_decls e
  ↔ name ∈ shim_names ∧ (guard_of name ∉ macros e) ∧ t = shim_type e name.
Proof.
  rewrite elem_of_shim_names.
  unfold shim_decls, size_decls, stdint_decls, shim_type.
  split.
  - intros Hd.
    destruct (decide ("_SIZE_T_DEFINED" ∈ macros e));
      destruct (decide ("_STDINT_H" ∈ macros e));
      destruct (decide ("__LP64__" ∈ macros e));
      simpl in Hd; rewrite ?elem_of_cons, elem_of_nil in Hd;
      repeat (destruct Hd as [Hd|Hd]; [simplify_eq; simpl_guard_of; simpl; tauto|]);
      done.
  - intros ([->|[->|[->| ->]]] & Hg & ->); simpl_guard_of; simpl;
      [ rewrite (decide_False (P := "_SIZE_T_DEFINED" ∈ macros e)) by done
      | rewrite (decide_False (P := "_SIZE_T_DEFINED" ∈ macros e)) by done
      | rewrite (decide_False (P := "_STDINT_H" ∈ macros e)) by done
      | rewrite (decide_False (P := "_STDINT_H" ∈ macros e)) by done ];
      repeat case_decide; simpl; rewrite ?elem_of_app, !elem_of_cons; tauto.
Qed.

Lemma elem_of_flat_map {A B : Type} (f : A → list B) (l : list A) (y : B) :
  y ∈ flat_map f l ↔ ∃ x, x ∈ l ∧ y ∈ f x.
Proof.
  rewrite list_elem_of_In, in_flat_map. by setoid_rewrite list_elem_of_In.
Qed.

Lemma elem_of_clash_of ds d x :
  x ∈ clash_of ds d
  ↔ ∃ t0, lookup_typedef d.1 ds = Some t0 ∧ t0 ≠ d.2
          ∧ x = TypedefRedefinition d.1 t0 d.2.
Proof.
  unfold clash_of. destruct (lookup_typedef d.1 ds) as [t0|].
  - case_decide.
    + rewrite elem_of_nil. split; [done|]. intros (? & ? & ? & ?). congruence.
    + rewrite list_elem_of_singleton. split; [by eauto|].
      by intros (? & ? & ? & ->); simplify_eq.
  - rewrite elem_of_nil. split; [done|]. by intros (? & ? & ?).
Qed.

(** The errors of a first reading of the shim: one for each name whose guard
    is undefined and whose earlier declaration has another type. *)
Lemma shim_error_spec e x :
  x ∈ new_diags types_workaround_h e
  ↔ ("TYPES_WORKAROUND_H" ∉ macros e)
    ∧ ∃ name t0, name ∈ shim_names ∧ (guard_of name ∉ macros e)
        ∧ lookup_typedef name (typedefs e) = Some t0
        ∧ t0 ≠ shim_type e name
        ∧ x = TypedefRedefinition name t0 (shim_type e name).
Proof.
  destruct (decide ("TYPES_WORKAROUND_H" ∈ macros e)) as [Hin|Hin].
  { rewrite shim_new_diags_skipped, elem_of_nil by done. tauto. }
  rewrite shim_new_diags, elem_of_flat_map by done. split.
  - intros ([name t] & Hd & Hx). split; [done|].
    apply shim_decls_spec in Hd as (Hn & Hg & ->).
    apply elem_of_clash_of in Hx as (t0 & Hl & Hne & ->). simpl in *.
    by exists name, t0.
  - intros (_ & name & t0 & Hn & Hg & Hl & Hne & ->).
    exists (name, shim_type e name). split; [by apply shim_decls_spec|].
    apply elem_of_clash_of. by exists t0.
Qed.

Lemma different_shape_different_type dm t0 t :
  bits dm t0 ≠ bits dm t ∨ is_signed t0 ≠ is_signed t → t0 ≠ t.
Proof. intros [Hne|Hne] ->; by apply Hne. Qed.

Lemma faithful_no_clash e name :
  guards_faithful e → name ∈ shim_names → guard_of name ∉ macros e →
  lookup_typedef name (typedefs e) = None.
Proof.
  intros Hf Hn Hg. destruct (lookup_typedef name (typedefs e)) as [t0|] eqn:Hl; [|done].
  exfalso. apply Hg, (Hf name Hn). unfold defined. by rewrite Hl.
Qed.

(** C7, as stated, fails: [size_t] is already declared with a type of
    another width than the shim's, its guard [_SIZE_T_DEFINED] is undefined,
    and yet the shim reports nothing, because its own guard skips it. *)
Lemma shim_error_counterexample :
  "size_t" ∈ shim_names
  ∧ ("_SIZE_T_DEFINED" ∉ macros skipped_conflict_env)
  ∧ guard_of "size_t" = "_SIZE_T_DEFINED"
  ∧ lookup_typedef "size_t" (typedefs skipped_conflict_env) = Some TULongLong
  ∧ (∀ dm, bits dm TULongLong ≠ bits dm (shim_type skipped_conflict_env "size_t"))
  ∧ new_diags types_workaround_h skipped_conflict_env = [].
Proof.
  repeat split.
  - apply elem_of_shim_names. by left.
  - vm_compute. discriminate.
  - intros dm. vm_compute. discriminate.
Qed.

(** C7, amended. Where [TYPES_WORKAROUND_H] is undefined, the shim reports
    an error exactly when one of the four names already has a declaration
    whose type is not the one the shim gives it while the guard macro of that
    name is undefined, and the error is the redefinition of that name; where
    [TYPES_WORKAROUND_H] is defined it reports nothing. In particular no
    error is reported when the guard macros tell faithfully which names are
    declared. *)
Theorem shim_errors_exactly (e : env) :
  (new_diags types_workaround_h e ≠ []
   ↔ ("TYPES_WORKAROUND_H" ∉ macros e)
     ∧ ∃ name t0, name ∈ shim_names ∧ (guard_of name ∉ macros e)
         ∧ lookup_typedef name (typedefs e) = Some t0
         ∧ t0 ≠ shim_type e name)
  ∧ (("TYPES_WORKAROUND_H" ∉ macros e) →
     ∀ name t0, name ∈ shim_names → (guard_of name ∉ macros e) →
       lookup_typedef name (typedefs e) = Some t0 →
       t0 ≠ shim_type e name →
       TypedefRedefinition name t0 (shim_type e name) ∈ new_diags types_workaround_h e)
  ∧ (guards_faithful e → new_diags types_workaround_h e = []).
Proof.
  assert (Hsome : ("TYPES_WORKAROUND_H" ∉ macros e) →
     ∀ name t0, name ∈ shim_names → (guard_of name ∉ macros e) →
       lookup_typedef name (typedefs e) = Some t0 →
       t0 ≠ shim_type e name →
       TypedefRedefinition name t0 (shim_type e name) ∈ new_diags types_workaround_h e).
  { intros Hin name t0 Hn Hg Hl Hne. apply shim_error_spec.
    split; [done|]. by exists name, t0. }
  split; [|split; [exact Hsome|]].
  - split.
    + intros Hne. destruct (new_diags types_workaround_h e) as [|x l] eqn:Hd; [done|].
      assert (Hx : x ∈ new_diags types_workaround_h e) by (rewrite Hd; left).
      apply shim_error_spec in Hx as (Hin & name & t0 & Hn & Hg & Hl & Hdiff & _).
      split; [done|]. by exists name, t0.
    + intros (Hin & name & t0 & Hn & Hg & Hl & Hdiff) Hnil.
      specialize (Hsome Hin name t0 Hn Hg Hl Hdiff).
      rewrite Hnil in Hsome. by apply elem_of_nil in Hsome.
  - intros Hf. destruct (new_diags types_workaround_h e) as [|x l] eqn:Hd; [done|].
    assert (Hx : x ∈ new_diags types_workaround_h e) by (rewrite Hd; left).
    apply shim_error_spec in Hx as (Hin & name & t0 & Hn & Hg & Hl & _).
    by rewrite (faithful_no_clash e name) in Hl.
Qed.

Lemma empty_env_faithful : guards_faithful empty_env.
Proof.
  intros name _. split.
  - intros Hin. by apply not_elem_of_empty in Hin.
  - intros [t Ht]. discriminate.
Qed.

Lemma shim_errors_exactly_witness :
  TypedefRedefinition "size_t" TULongLong TUInt ∈ new_diags types_workaround_h foreign_size_t_env
  ∧ new_diags types_workaround_h empty_env = [].
Proof.
  split.
  - apply (proj1 (proj2 (shim_errors_exactly foreign_size_t_env))).
    + vm_compute. discriminate.
    + apply elem_of_shim_names. by left.
    + vm_compute. discriminate.
    + reflexivity.
    + vm_compute. discriminate.
  - apply (proj2 (proj2 (shim_errors_exactly empty_env))), empty_env_faithful.
Defined.

(** *** Number of declarations of each name *)

Lemma declarations_shim_decls e name :
  name ∈ shim_names →
  length (filter (λ d, d.1 = name) (shim_decls e))
  = if decide (guard_of name ∈ macros e) then 0 else 1.
Proof.
  rewrite elem_of_shim_names.
  unfold shim_decls, size_decls, stdint_decls.
  intros [->|[->|[->| ->]]]; simpl_guard_of;
    destruct (decide ("_SIZE_T_DEFINED" ∈ macros e));
    destruct (decide ("_STDINT_H" ∈ macros e));
    destruct (decide ("__LP64__" ∈ macros e)); reflexivity.
Qed.

Lemma declarations_shim e name :
  "TYPES_WORKAROUND_H" ∉ macros e →
  name ∈ shim_names →
  declarations name (types_workaround_h e)
  = (declarations name e + if decide (guard_of name ∈ macros e) then 0 else 1)%nat.
Proof.
  intros Hin Hn. unfold declarations. rewrite shim_first_time by done. simpl.
  by rewrite filter_app, length_app, declarations_shim_decls.
Qed.

(** C3, as stated, fails: from [size_t_only_env] the shim leaves [ssize_t]
    without a declaration, and from [unguarded_size_t_env] it declares the
    already declared [size_t] a second time. *)
Lemma shim_exactly_one_counterexample :
  ¬ (∀ name, name ∈ shim_names →
       declarations name (types_workaround_h size_t_only_env) = 1)
  ∧ declarations "ssize_t" (types_workaround_h size_t_only_env) = 0
  ∧ declarations "size_t" unguarded_size_t_env = 1
  ∧ declarations "size_t" (types_workaround_h unguarded_size_t_env) = 2.
Proof.
  split; [|by vm_compute].
  intros Hall. specialize (Hall "ssize_t").
  assert (Hn : "ssize_t" ∈ shim_names) by (apply elem_of_shim_names; auto).
  apply Hall in Hn. vm_compute in Hn. discriminate.
Qed.

(** C3, amended. From a state in which the shim has not been read yet
    ([TYPES_WORKAROUND_H] undefined), the guard macros tell faithfully which
    of the four names are declared, and none of the four names is declared
    more than once, the shim leaves each of [size_t], [ssize_t], [uint32_t]
    and [int32_t] with exactly one declaration: it declares no name that is
    already declared, and it declares every name that is not. *)
Theorem shim_exactly_one_definition (e : env) :
  "TYPES_WORKAROUND_H" ∉ macros e →
  guards_faithful e →
  (∀ name, name ∈ shim_names → (declarations name e ≤ 1)%nat) →
  ∀ name, name ∈ shim_names →
    declarations name (types_workaround_h e) = 1
    ∧ (defined name e →
       declarations name (types_workaround_h e) = declarations name e).
Proof.
  intros Hin Hf Hle name Hn.
  rewrite declarations_shim by done.
  specialize (Hle name Hn). specialize (Hf name Hn).
  rewrite defined_declarations in Hf.
  case_decide as Hg.
  - apply Hf in Hg. split; [lia | intros _; lia].
  - assert (Hz : declarations name e = 0).
    { destruct (declarations name e) as [|k] eqn:Hk; [done|].
      exfalso. apply Hg, Hf. lia. }
    rewrite defined_declarations, Hz. split; [done | lia].
Qed.

Lemma stdint_only_env_faithful : guards_faithful stdint_only_env.
Proof.
  intros name Hn. apply elem_of_shim_names in Hn.
  destruct Hn as [->|[->|[->| ->]]]; simpl_guard_of; split; intros H;
    solve [ by vm_compute in H | by eexists | by vm_compute
          | destruct H as [? H]; by vm_compute in H ].
Qed.

Lemma shim_exactly_one_definition_witness :
  declarations "size_t" (types_workaround_h stdint_only_env) = 1
  ∧ declarations "ssize_t" (types_workaround_h stdint_only_env) = 1
  ∧ declarations "uint32_t" (types_workaround_h stdint_only_env) = 1
  ∧ declarations "int32_t" (types_workaround_h stdint_only_env) = 1.
Proof.
  assert (Hle : ∀ name, name ∈ shim_names → declarations name stdint_only_env ≤ 1).
  { intros name Hn. apply elem_of_shim_names in Hn.
    destruct Hn as [->|[->|[->| ->]]]; vm_compute; lia. }
  assert (Hin : "TYPES_WORKAROUND_H" ∉ macros stdint_only_env).
  { vm_compute. discriminate. }
  pose proof (shim_exactly_one_definition stdint_only_env Hin
                stdint_only_env_faithful Hle) as Hone.
  repeat split; apply Hone, elem_of_shim_names; tauto.
Defined.

(** ** Sequences of inclusions on a host *)

Lemma same_declarations_refl e : same_declarations e e.
Proof. by repeat split. Qed.

Lemma same_declarations_trans e1 e2 e3 :
  same_declarations e1 e2 → same_declarations e2 e3 → same_declarations e1 e3.
Proof.
  intros (Hm & Ht & Hg & Hr) (Hm' & Ht' & Hg' & Hr').
  repeat split; congruence.
Qed.

Section inclusions.

Context (h : host).

Lemma effects_cons inc incs e :
  effects h (inc :: incs) e = effects h incs (include_effect h inc.1 inc.2 e).
Proof. reflexivity. Qed.

Lemma include_effect_halted form file e :
  halted e = true → include_effect h form file e = e.
Proof. intros Hh. unfold include_effect. by rewrite Hh. Qed.

Lemma include_effect_found form file body e :
  halted e = false → resolve h form file = Some body →
  include_effect h form file e = body e.
Proof. intros Hh Hres. unfold include_effect. by rewrite Hh, Hres. Qed.

Lemma include_effect_missing form file e :
  halted e = false → resolve h form file = None →
  include_effect h form file e = report (FileNotFound file) e.
Proof. intros Hh Hres. unfold include_effect. by rewrite Hh, Hres. Qed.

Lemma halted_report_missing file e : halted (report (FileNotFound file) e) = true.
Proof.
  unfold halted, report. simpl. rewrite existsb_app. simpl. apply orb_true_r.
Qed.

(** Once the reading has stopped, the remaining [#include] lines do nothing. *)
Lemma effects_halted incs e : halted e = true → effects h incs e = e.
Proof.
  induction incs as [|inc incs IH]; intros Hh; [done|].
  by rewrite effects_cons, include_effect_halted, IH.
Qed.

Lemma effects_grow incs :
  (∀ inc body, inc ∈ incs → resolve h inc.1 inc.2 = Some body → grows body) →
  ∀ e, macros e ⊆ macros (effects h incs e).
Proof.
  induction incs as [|inc incs IH]; intros Hall e; [done|].
  rewrite effects_cons. transitivity (macros (include_effect h inc.1 inc.2 e)).
  - unfold include_effect. destruct (halted e); [done|].
    destruct (resolve h inc.1 inc.2) as [body|] eqn:Hres; [|done].
    apply (Hall inc body); [left | done].
  - apply IH. intros inc' body Hin. apply Hall. by right.
Qed.

(** When the reading has not stopped by the end of the lines, the file of
    every line has been found and read. *)
Lemma effects_performed incs :
  (∀ inc body, inc ∈ incs → resolve h inc.1 inc.2 = Some body → grows body) →
  ∀ e, halted (effects h incs e) = false →
  ∀ inc, inc ∈ incs →
    ∃ body e0, resolve h inc.1 inc.2 = Some body
               ∧ macros (body e0) ⊆ macros (effects h incs e).
Proof.
  induction incs as [|a incs IH]; intros Hall e Hend inc Hin.
  { by apply elem_of_nil in Hin. }
  rewrite effects_cons in Hend |- *.
  assert (Hmid : halted (include_effect h a.1 a.2 e) = false).
  { destruct (halted (include_effect h a.1 a.2 e)) eqn:Hh; [|done].
    rewrite effects_halted in Hend by done. congruence. }
  apply elem_of_cons in Hin as [->|Hin].
  - assert (Hstart : halted e = false).
    { destruct (halted e) eqn:Hh; [|done].
      rewrite include_effect_halted in Hmid by done. congruence. }
    destruct (resolve h a.1 a.2) as [body|] eqn:Hres.
    + exists body, e. split; [done|].
      rewrite (include_effect_found _ _ body) by done.
      apply effects_grow. intros inc' body' Hin'. apply Hall. by right.
    + rewrite include_effect_missing, halted_report_missing in Hmid by done.
      discriminate.
  - apply IH; [|done..]. intros inc' body' Hin'. apply Hall. by right.
Qed.

Lemma effects_settled incs e1 :
  (∀ inc, inc ∈ incs →
     ∀ e', macros e1 ⊆ macros e' → same_declarations e' (include_effect h inc.1 inc.2 e')) →
  ∀ e2, same_declarations e1 e2 → same_declarations e1 (effects h incs e2).
Proof.
  induction incs as [|inc incs IH]; intros Hall e2 Hsame; [done|].
  rewrite effects_cons. apply IH.
  - intros inc' Hin. apply Hall. by right.
  - apply (same_declarations_trans _ e2); [done|].
    apply Hall; [left|]. destruct Hsame as (-> & _). done.
Qed.

Lemma effects_twice incs :
  (∀ inc body, inc ∈ incs → resolve h inc.1 inc.2 = Some body → reincludable body) →
  ∀ e, same_declarations (effects h incs e) (effects h incs (effects h incs e)).
Proof.
  intros Hall e.
  destruct (halted (effects h incs e)) eqn:Hend.
  { rewrite (effects_halted incs (effects h incs e)) by done.
    apply same_declarations_refl. }
  apply effects_settled; [|apply same_declarations_refl].
  intros inc Hin e' Hsub.
  destruct (effects_performed incs (λ i b Hi Hr, proj1 (Hall i b Hi Hr)) e Hend inc Hin)
    as (body & e0 & Hres & Hsat).
  destruct (halted e') eqn:Hh.
  { rewrite include_effect_halted by done. apply same_declarations_refl. }
  rewrite (include_effect_found _ _ body) by done.
  apply (proj2 (Hall inc body Hin Hres) e0).
  by transitivity (macros (effects h incs e)).
Qed.

(** Whatever becomes true while a list of [#include] lines is read, and is
    not brought about by a file-not-found error, is brought about by the
    text of one of the files found. *)
Lemma effects_provenance (P : env → Prop) `{!∀ e, Decision (P e)} incs e :
  (∀ d e0, P (report d e0) → P e0) →
  P (effects h incs e) → ¬ P e →
  ∃ inc body e', inc ∈ incs ∧ resolve h inc.1 inc.2 = Some body
                 ∧ ¬ P e' ∧ P (body e').
Proof.
  intros Hrep. revert e. induction incs as [|inc incs IH]; intros e Hend Hstart.
  { by destruct Hstart. }
  rewrite effects_cons in Hend.
  destruct (decide (P (include_effect h inc.1 inc.2 e))) as [Hnow|Hnot].
  - unfold include_effect in Hnow. destruct (halted e); [done|].
    destruct (resolve h inc.1 inc.2) as [body|] eqn:Hres.
    + exists inc, body, e. repeat split; [left | done..].
    + by apply Hrep in Hnow.
  - destruct (IH _ Hend Hnot) as (inc' & body & e' & Hin & Hres & Hn & Hy).
    exists inc', body, e'. repeat split; [by right | done..].
Qed.

End inclusions.

(** ** Properties of wrapper.h *)

Lemma wrapper_included h u :
  included (wrapper_h h u) = included u ++ wrapper_includes.
Proof. unfold wrapper_h, seq, include; simpl. by rewrite <- !app_assoc. Qed.

Lemma wrapper_env h u :
  tu_env (wrapper_h h u) = effects h wrapper_includes (tu_env u).
Proof. reflexivity. Qed.

Lemma wrapper_new_includes h u :
  new_includes (wrapper_h h) u = wrapper_includes.
Proof. unfold new_includes. by rewrite wrapper_included, drop_app_length. Qed.

(** C6. Whatever the host and the state, wrapper.h includes [stddef.h],
    [stdbool.h], [stdint.h], [sys/types.h] and [BinderBindings.hpp], in this
    order and nothing else: each of the four standard headers comes strictly
    before the vendor header, which comes last, and the state after
    wrapper.h is the state after the five included files, wrapper.h adding
    nothing of its own. *)
Theorem wrapper_inclusion_order (h : host) (u : tu) :
  new_includes (wrapper_h h) u
  = [(Angled, "stddef.h"); (Angled, "stdbool.h"); (Angled, "stdint.h");
     (Angled, "sys/types.h"); (Quoted, "BinderBindings.hpp")]
  ∧ (∀ std, std ∈ standard_headers →
       ∃ i j, new_includes (wrapper_h h) u !! i = Some (Angled, std)
              ∧ new_includes (wrapper_h h) u !! j = Some (Quoted, "BinderBindings.hpp")
              ∧ (i < j)%nat)
  ∧ last (new_includes (wrapper_h h) u) = Some (Quoted, "BinderBindings.hpp")
  ∧ tu_env (wrapper_h h u)
    = (include_effect h Angled "stddef.h" ;;
       include_effect h Angled "stdbool.h" ;;
       include_effect h Angled "stdint.h" ;;
       include_effect h Angled "sys/types.h" ;;
       include_effect h Quoted "BinderBindings.hpp")%hdr (tu_env u).
Proof.
  rewrite wrapper_new_includes. repeat split.
  intros std Hstd. unfold standard_headers in Hstd.
  rewrite !elem_of_cons, elem_of_nil in Hstd.
  destruct Hstd as [->|[->|[->|[->|[]]]]];
    [exists 2, 4 | exists 1, 4 | exists 0, 4 | exists 3, 4];
    (split; [reflexivity | split; [reflexivity | lia]]).
Qed.

Lemma wrapper_inclusion_order_witness :
  ∃ i j, new_includes (wrapper_h guarded_host) (start empty_env) !! i
         = Some (Angled, "stdint.h")
         ∧ new_includes (wrapper_h guarded_host) (start empty_env) !! j
           = Some (Quoted, "BinderBindings.hpp")
         ∧ i < j.
Proof.
  apply (proj1 (proj2 (wrapper_inclusion_order guarded_host (start empty_env)))).
  unfold standard_headers. left.
Defined.

(** C8. Whatever the host and the state, the files wrapper.h includes
    itself are [stddef.h], [stdbool.h], [stdint.h], [sys/types.h] and
    [BinderBindings.hpp] and no other; [types_workaround.h] is not among them.
    wrapper.h has no include guard: read a second time it includes the same
    files again, and every macro that becomes defined, like every name that
    becomes declared, while wrapper.h is read is defined or declared by the
    text of one of the included files as the host supplies it, never by
    wrapper.h. *)
Theorem wrapper_direct_includes (h : host) (u : tu) :
  (∀ f, f ∈ (new_includes (wrapper_h h) u).*2
        ↔ f ∈ ["stddef.h"; "stdbool.h"; "stdint.h"; "sys/types.h";
               "BinderBindings.hpp"])
  ∧ ("types_workaround.h" ∉ (new_includes (wrapper_h h) u).*2)
  ∧ new_includes (wrapper_h h) (wrapper_h h u) = new_includes (wrapper_h h) u
  ∧ (∀ m, m ∈ macros (tu_env (wrapper_h h u)) → m ∉ macros (tu_env u) →
       ∃ inc body e', inc ∈ new_includes (wrapper_h h) u
         ∧ resolve h inc.1 inc.2 = Some body
         ∧ (m ∉ macros e') ∧ m ∈ macros (body e'))
  ∧ (∀ name, defined name (tu_env (wrapper_h h u)) → ¬ defined name (tu_env u) →
       ∃ inc body e', inc ∈ new_includes (wrapper_h h) u
         ∧ resolve h inc.1 inc.2 = Some body
         ∧ ¬ defined name e' ∧ defined name (body e')).
Proof.
  rewrite !wrapper_new_includes. split; [done|]. split.
  { simpl. rewrite !elem_of_cons, elem_of_nil.
    intros [H|[H|[H|[H|[H|[]]]]]]; discriminate. }
  split; [done|]. split.
  - intros m Hend Hstart. rewrite wrapper_env in Hend.
    by apply (effects_provenance h (λ e, m ∈ macros e) wrapper_includes (tu_env u)).
  - intros name Hend Hstart. rewrite wrapper_env in Hend.
    by apply (effects_provenance h (λ e, defined name e) wrapper_includes (tu_env u)).
Qed.

Lemma wrapper_direct_includes_witness :
  ∃ inc body e',
    inc ∈ new_includes (wrapper_h guarded_host) (start empty_env)
    ∧ resolve guarded_host inc.1 inc.2 = Some body
    ∧ ("_STDINT_H" ∉ macros e') ∧ "_STDINT_H" ∈ macros (body e').
Proof.
  apply (proj1 (proj2 (proj2 (proj2
           (wrapper_direct_includes guarded_host (start empty_env)))))).
  - vm_compute. reflexivity.
  - vm_compute. discriminate.
Defined.

(** *** Reading wrapper.h twice *)

Lemma grows_seq (a b : Header) : grows a → grows b → grows (a ;; b)%hdr.
Proof. intros Ha Hb e. unfold seq. by transitivity (macros (a e)). Qed.

Lemma grows_define m : grows (define m).
Proof. intros e. unfold define; simpl. apply union_subseteq_r. Qed.

Lemma grows_typedef t name : grows (typedef t name).
Proof. intros e. by rewrite typedef_unfold. Qed.

Lemma grows_define_tag name : grows (define_tag name).
Proof. intros e. unfold define_tag, report. by case_decide. Qed.

Lemma grows_ifndef m body : grows body → grows (ifndef m body).
Proof. intros Hb e. unfold ifndef. case_decide; [done | apply Hb]. Qed.

(** The usual include guard: [#ifndef g], [#define g], text, [#endif]. *)
Lemma include_guard_reincludable g body :
  grows body → reincludable (ifndef g (define g ;; body)).
Proof.
  intros Hb. split; [by apply grows_ifndef, grows_seq; [apply grows_define|]|].
  assert (Hg : ∀ e, g ∈ macros (ifndef g (define g ;; body)%hdr e)).
  { intros e. unfold ifndef. case_decide; [done|].
    unfold seq. apply (Hb (define g e)). apply elem_of_define. by left. }
  intros e e' Hsub. unfold ifndef at 1.
  rewrite decide_True by (apply Hsub, Hg). apply same_declarations_refl.
Qed.

(** C2, as stated, fails: wrapper.h has no include guard, so on a host
    whose vendor header defines a tag and has no guard either, the first
    reading of wrapper.h reports no redefinition and the second one does. *)
Lemma wrapper_twice_counterexample :
  redefinitions (tu_env (wrapper_h unguarded_vendor_host (start empty_env))) = []
  ∧ redefinitions
      (tu_env (wrapper_h unguarded_vendor_host
                 (wrapper_h unguarded_vendor_host (start empty_env))))
    = [TagRedefinition "vendor_tag"].
Proof. split; vm_compute; reflexivity. Qed.

(** C2, amended. wrapper.h has no include guard of its own: read a second
    time, it goes through its five [#include] lines again. If on the host each
    of the five files is missing or protected against repeated inclusion, the
    second reading changes no macro, no typedef declaration and no tag, and
    reports no redefinition. *)
Theorem wrapper_twice (h : host) (u : tu) :
  (∀ inc body, inc ∈ wrapper_includes → resolve h inc.1 inc.2 = Some body →
     reincludable body) →
  same_declarations (tu_env (wrapper_h h u)) (tu_env (wrapper_h h (wrapper_h h u)))
  ∧ new_includes (wrapper_h h) (wrapper_h h u) = wrapper_includes.
Proof.
  intros Hall. split; [|apply wrapper_new_includes].
  rewrite !wrapper_env. by apply effects_twice.
Qed.

Lemma guarded_host_reincludable inc body :
  inc ∈ wrapper_includes → resolve guarded_host inc.1 inc.2 = Some body →
  reincludable body.
Proof.
  unfold wrapper_includes. rewrite !elem_of_cons, elem_of_nil.
  intros [->|[->|[->|[->|[->|[]]]]]] Hres; injection Hres as <-.
  - apply include_guard_reincludable, grows_typedef.
  - apply include_guard_reincludable, grows_define.
  - apply include_guard_reincludable, grows_seq; apply grows_typedef.
  - apply include_guard_reincludable, grows_typedef.
  - apply include_guard_reincludable, grows_define_tag.
Qed.

Lemma wrapper_twice_witness :
  same_declarations
    (tu_env (wrapper_h guarded_host (start empty_env)))
    (tu_env (wrapper_h guarded_host (wrapper_h guarded_host (start empty_env))))
  ∧ new_includes (wrapper_h guarded_host) (wrapper_h guarded_host (start empty_env))
    = wrapper_includes.
Proof.
  apply (wrapper_twice guarded_host (start empty_env)), guarded_host_reincludable.
Defined.

(** *** wrapper.h on a host without the standard headers *)

Lemma halted_clashes ds l : existsb is_fatal (flat_map (clash_of ds) l) = false.
Proof.
  induction l as [|d l IH]; [done|]. simpl. rewrite existsb_app, IH, orb_false_r.
  unfold clash_of. destruct (lookup_typedef d.1 ds); [by case_decide | done].
Qed.

(** The shim reports no fatal error. *)
Lemma halted_shim e : halted (types_workaround_h e) = halted e.
Proof.
  destruct (decide ("TYPES_WORKAROUND_H" ∈ macros e)) as [Hin|Hin].
  - by rewrite shim_skipped.
  - rewrite shim_first_time by done. unfold halted. simpl.
    by rewrite existsb_app, halted_clashes, orb_false_r.
Qed.

(** Without [stddef.h] the reading of wrapper.h stops at its first line. *)
Lemma wrapper_stops_without_stddef h e :
  system_headers h "stddef.h" = None → halted e = false →
  effects h wrapper_includes e = report (FileNotFound "stddef.h") e.
Proof.
  intros Hnone Hh. unfold wrapper_includes. rewrite effects_cons. cbn [fst snd].
  rewrite (include_effect_missing h Angled "stddef.h" e Hh Hnone).
  apply effects_halted, halted_report_missing.
Qed.

Lemma lookup_typedef_elem_is_Some name t ds :
  (name, t) ∈ ds → is_Some (lookup_typedef name ds).
Proof.
  induction ds as [|[n t'] ds IH]; intros Hin; [by apply elem_of_nil in Hin|].
  simpl. case_decide; [by eauto|].
  apply elem_of_cons in Hin as [?|Hin]; [by simplify_eq | by apply IH].
Qed.

Lemma shim_defines_all e name :
  "TYPES_WORKAROUND_H" ∉ macros e → guards_faithful e → name ∈ shim_names →
  defined name (types_workaround_h e).
Proof.
  intros Hin Hf Hn. unfold defined. rewrite shim_first_time by done. simpl.
  rewrite lookup_typedef_app.
  destruct (lookup_typedef name (typedefs e)) as [t|] eqn:Hl; [by eauto|].
  apply (lookup_typedef_elem_is_Some name (shim_type e name)), shim_decls_spec.
  repeat split; [done|]. intros Hg. apply (Hf name Hn) in Hg as [t Ht]. congruence.
Qed.

(** C1, as stated, fails: wrapper.h does not include the shim, so on a host
    without the four standard headers the lines of wrapper.h that come before
    the vendor header declare none of the four names, and the shim has not
    been read. *)
Lemma wrapper_without_headers_counterexample :
  lacks_standard_headers vendor_only_host
  ∧ ¬ (∀ name, name ∈ shim_names →
         defined name (tu_env (wrapper_before_vendor vendor_only_host (start empty_env))))
  ∧ typedefs (tu_env (wrapper_before_vendor vendor_only_host (start empty_env))) = []
  ∧ ("TYPES_WORKAROUND_H"
     ∉ macros (tu_env (wrapper_h vendor_only_host (start empty_env)))).
Proof.
  split; [done|]. split; [|split; [reflexivity | vm_compute; discriminate]].
  intros Hall. destruct (Hall "size_t") as [t Ht]; [|discriminate].
  apply elem_of_shim_names. by left.
Qed.

(** C1, amended. wrapper.h does not include types_workaround.h. On a host
    without the four standard headers the reading of wrapper.h stops at its
    first line, [#include <stddef.h>], with a fatal file-not-found error:
    whether or not the shim has been read before, wrapper.h adds this error
    and nothing else, and the vendor header is not read. What the shim
    supplies is this: read from a state in which [TYPES_WORKAROUND_H] is
    undefined and the guard macros tell faithfully which names are declared,
    it leaves [size_t], [ssize_t], [uint32_t] and [int32_t] all declared, so
    that the vendor header, when it is included directly after the shim
    instead of through wrapper.h, is read with the four names declared. *)
Theorem shim_then_wrapper_without_headers (h : host) (e : env) :
  lacks_standard_headers h →
  halted e = false →
  "TYPES_WORKAROUND_H" ∉ macros e →
  guards_faithful e →
  tu_env (wrapper_h h (start e)) = report (FileNotFound "stddef.h") e
  ∧ tu_env (wrapper_h h (start (types_workaround_h e)))
    = report (FileNotFound "stddef.h") (types_workaround_h e)
  ∧ (∀ name, name ∈ shim_names → defined name (types_workaround_h e))
  ∧ (∀ body, resolve h Quoted "BinderBindings.hpp" = Some body →
       tu_env (include h Quoted "BinderBindings.hpp" (start (types_workaround_h e)))
       = body (types_workaround_h e)).
Proof.
  intros Hlack Hh Hin Hf.
  assert (Hnone : system_headers h "stddef.h" = None).
  { apply Hlack. unfold standard_headers. rewrite !elem_of_cons. tauto. }
  rewrite !wrapper_env. simpl.
  split; [by apply wrapper_stops_without_stddef|].
  split; [apply wrapper_stops_without_stddef; [done | by rewrite halted_shim]|].
  split; [intros name Hn; by apply (shim_defines_all e name)|].
  intros body Hres. apply include_effect_found; [by rewrite halted_shim | done].
Qed.

Lemma shim_then_wrapper_without_headers_witness :
  tu_env (wrapper_h vendor_only_host (start empty_env))
  = report (FileNotFound "stddef.h") empty_env
  ∧ tu_env (wrapper_h vendor_only_host (start (types_workaround_h empty_env)))
    = report (FileNotFound "stddef.h") (types_workaround_h empty_env)
  ∧ (∀ name, name ∈ shim_names → defined name (types_workaround_h empty_env))
  ∧ (∀ body, resolve vendor_only_host Quoted "BinderBindings.hpp" = Some body →
       tu_env (include vendor_only_host Quoted "BinderBindings.hpp"
                 (start (types_workaround_h empty_env)))
       = body (types_workaround_h empty_env)).
Proof.
  apply (shim_then_wrapper_without_headers vendor_only_host empty_env).
  - intros f _. reflexivity.
  - reflexivity.
  - vm_compute. discriminate.
  - apply empty_env_faithful.
Defined.

(** * Further properties of the two headers *)

(** ** What the shim leaves alone *)

Lemma shim_decls_names e d : d ∈ shim_decls e → d.1 ∈ shim_names.
Proof. destruct d as [name t]. intros Hd. by apply shim_decls_spec in Hd as (? & _). Qed.

Lemma shim_decls_other_name e name :
  name ∉ shim_names → filter (λ d, d.1 = name) (shim_decls e) = [].
Proof.
  intros Hn. destruct (filter _ (shim_decls e)) as [|d l] eqn:Hf; [done|].
  assert (Hd : d ∈ filter (λ d, d.1 = name) (shim_decls e)) by (rewrite Hf; left).
  apply list_elem_of_filter in Hd as [<- Hd]. by apply shim_decls_names in Hd.
Qed.

(** X1. The shim only adds: whatever the state, every macro defined before
    is defined after, the typedef declarations and the errors present before
    are kept, in order, at the front of those present after, and the tags are
    unchanged. *)
Theorem shim_only_adds (e : env) :
  macros e ⊆ macros (types_workaround_h e)
  ∧ typedefs e `prefix_of` typedefs (types_workaround_h e)
  ∧ diags e `prefix_of` diags (types_workaround_h e)
  ∧ tags (types_workaround_h e) = tags e.
Proof.
  destruct (decide ("TYPES_WORKAROUND_H" ∈ macros e)) as [Hin|Hin].
  - by rewrite shim_skipped.
  - split; [|rewrite shim_first_time by done; simpl;
             split; [apply prefix_app_r | split; [apply prefix_app_r|]]; done].
    intros m Hm. apply shim_macros_spec. by left.
Qed.

(** X2. Every declaration the shim adds is a declaration of one of
    [size_t], [ssize_t], [uint32_t] and [int32_t], with the type the shim gives
    that name; any other name has after the shim exactly the declarations it
    had before. *)
Theorem shim_declares_only_its_names (e : env) (name : string) :
  (∀ d, d ∈ new_typedefs types_workaround_h e →
        d.1 ∈ shim_names ∧ d.2 = shim_type e d.1)
  ∧ (name ∉ shim_names →
     filter (λ d, d.1 = name) (typedefs (types_workaround_h e))
     = filter (λ d, d.1 = name) (typedefs e)
     ∧ declarations name (types_workaround_h e) = declarations name e).
Proof.
  destruct (decide ("TYPES_WORKAROUND_H" ∈ macros e)) as [Hin|Hin].
  { unfold new_typedefs. rewrite shim_skipped, drop_all by done.
    split; [intros d Hd; by apply elem_of_nil in Hd | done]. }
  split.
  - intros [n t] Hd. unfold new_typedefs in Hd.
    rewrite shim_first_time in Hd by done. simpl in Hd.
    rewrite drop_app_length in Hd. apply shim_decls_spec in Hd. simpl. tauto.
  - intros Hn. unfold declarations. rewrite shim_first_time by done. simpl.
    by rewrite filter_app, (shim_decls_other_name e name Hn), app_nil_r.
Qed.

Lemma shim_declares_only_its_names_witness :
  filter (λ d, d.1 = "pid_t")
    (typedefs (types_workaround_h (Env ∅ [("pid_t", TInt)] [] [])))
  = [("pid_t", TInt)]
  ∧ declarations "pid_t" (types_workaround_h (Env ∅ [("pid_t", TInt)] [] [])) = 1.
Proof.
  apply (proj2 (shim_declares_only_its_names (Env ∅ [("pid_t", TInt)] [] []) "pid_t")).
  unfold shim_names. rewrite !elem_of_cons, elem_of_nil.
  intros [H|[H|[H|[H|[]]]]]; discriminate.
Defined.

(** X3. The only macros the shim can define are its own guard and
    [_SIZE_T_DEFINED], both exactly on a first reading; it defines no other
    macro and undefines none, so that [__LP64__] and [_STDINT_H] are after
    the shim what they were before. *)
Theorem shim_macro_effect (e : env) :
  macros (types_workaround_h e)
  = macros e ∪ (if decide ("TYPES_WORKAROUND_H" ∈ macros e) then ∅
                else {[ "TYPES_WORKAROUND_H"; "_SIZE_T_DEFINED" ]})
  ∧ ("__LP64__" ∈ macros (types_workaround_h e) ↔ "__LP64__" ∈ macros e)
  ∧ ("_STDINT_H" ∈ macros (types_workaround_h e) ↔ "_STDINT_H" ∈ macros e).
Proof.
  split; [|split; rewrite shim_macros_spec; intuition discriminate].
  apply set_eq. intros m. rewrite shim_macros_spec, elem_of_union.
  case_decide.
  - rewrite elem_of_empty. tauto.
  - rewrite elem_of_union, !elem_of_singleton. tauto.
Qed.

(** X4. Whatever the state, the shim reports at most four errors, and each
    of them is the redefinition of one of its four names to the type the
    shim gives it: it reports no missing file and no tag. *)
Theorem shim_errors_bounded (e : env) :
  length (new_diags types_workaround_h e) ≤ 4
  ∧ ∀ d, d ∈ new_diags types_workaround_h e →
      ∃ name t0, name ∈ shim_names ∧ t0 ≠ shim_type e name
                 ∧ d = TypedefRedefinition name t0 (shim_type e name).
Proof.
  split.
  - destruct (decide ("TYPES_WORKAROUND_H" ∈ macros e)) as [Hin|Hin].
    { rewrite shim_new_diags_skipped by done. simpl. lia. }
    rewrite shim_new_diags by done.
    assert (Hone : ∀ d, length (clash_of (typedefs e) d) ≤ 1).
    { intros d. unfold clash_of.
      destruct (lookup_typedef d.1 (typedefs e)); [case_decide|]; simpl; lia. }
    unfold shim_decls, size_decls, stdint_decls.
    repeat case_decide; simpl; rewrite ?length_app; simpl;
      repeat match goal with
             | |- context [length (clash_of (typedefs e) ?d)] =>
                 let H := fresh in
                 pose proof (Hone d) as H;
                 generalize dependent (length (clash_of (typedefs e) d)); intros
             end; lia.
  - intros d Hd. apply shim_error_spec in Hd
      as (_ & name & t0 & Hn & _ & _ & Hne & ->). by exists name, t0.
Qed.

(** ** What the shim declares together *)

Lemma shim_new_typedefs_skipped e :
  "TYPES_WORKAROUND_H" ∈ macros e → new_typedefs types_workaround_h e = [].
Proof.
  intros Hin. unfold new_typedefs. rewrite shim_skipped by done. apply drop_all.
Qed.

Lemma shim_new_typedefs_spec e name t :
  (name, t) ∈ new_typedefs types_workaround_h e
  ↔ ("TYPES_WORKAROUND_H" ∉ macros e)
    ∧ name ∈ shim_names ∧ (guard_of name ∉ macros e) ∧ t = shim_type e name.
Proof.
  destruct (decide ("TYPES_WORKAROUND_H" ∈ macros e)) as [Hin|Hin].
  - rewrite shim_new_typedefs_skipped, elem_of_nil by done. tauto.
  - rewrite shim_new_typedefs, shim_decls_spec by done. tauto.
Qed.

Lemma shim_newly_declared e name :
  name ∈ (new_typedefs types_workaround_h e).*1
  ↔ ("TYPES_WORKAROUND_H" ∉ macros e)
    ∧ name ∈ shim_names ∧ (guard_of name ∉ macros e).
Proof.
  rewrite list_elem_of_fmap. split.
  - intros ([n t] & -> & Hd). apply shim_new_typedefs_spec in Hd. tauto.
  - intros (Hin & Hn & Hg). exists (name, shim_type e name).
    split; [done|]. by apply shim_new_typedefs_spec.
Qed.

(** X5. The shim declares its names in pairs: on any state it newly
    declares [size_t] exactly when it newly declares [ssize_t], namely when
    [TYPES_WORKAROUND_H] and [_SIZE_T_DEFINED] are undefined, and [uint32_t]
    exactly when [int32_t], namely when [TYPES_WORKAROUND_H] and [_STDINT_H]
    are undefined; it makes no, two or four declarations. *)
Theorem shim_declares_in_pairs (e : env) :
  ("size_t" ∈ (new_typedefs types_workaround_h e).*1
   ↔ "ssize_t" ∈ (new_typedefs types_workaround_h e).*1)
  ∧ ("size_t" ∈ (new_typedefs types_workaround_h e).*1
     ↔ ("TYPES_WORKAROUND_H" ∉ macros e) ∧ ("_SIZE_T_DEFINED" ∉ macros e))
  ∧ ("uint32_t" ∈ (new_typedefs types_workaround_h e).*1
     ↔ "int32_t" ∈ (new_typedefs types_workaround_h e).*1)
  ∧ ("uint32_t" ∈ (new_typedefs types_workaround_h e).*1
     ↔ ("TYPES_WORKAROUND_H" ∉ macros e) ∧ ("_STDINT_H" ∉ macros e))
  ∧ length (new_typedefs types_workaround_h e) ∈ [0; 2; 4].
Proof.
  rewrite !shim_newly_declared, !elem_of_shim_names. simpl_guard_of.
  repeat split; try tauto.
  destruct (decide ("TYPES_WORKAROUND_H" ∈ macros e)) as [Hin|Hin].
  { rewrite shim_new_typedefs_skipped by done. left. }
  rewrite shim_new_typedefs by done. unfold shim_decls, size_decls, stdint_decls.
  repeat case_decide; simpl; rewrite !elem_of_cons; tauto.
Qed.

(** X6. In every state and on every target, the type the shim declares for
    [size_t] is unsigned, the one it declares for [ssize_t] is signed and of
    the same width, and the types it declares for [uint32_t] and [int32_t]
    are the unsigned and the signed integer of 32 bits. *)
Theorem shim_signed_unsigned_pairs (dm : data_model) (e : env) (t1 t2 : ctype) :
  (("size_t", t1) ∈ new_typedefs types_workaround_h e →
   ("ssize_t", t2) ∈ new_typedefs types_workaround_h e →
   is_signed t1 = false ∧ is_signed t2 = true ∧ bits dm t1 = bits dm t2)
  ∧ (("uint32_t", t1) ∈ new_typedefs types_workaround_h e →
     ("int32_t", t2) ∈ new_typedefs types_workaround_h e →
     shape dm t1 = (32, false) ∧ shape dm t2 = (32, true)).
Proof.
  rewrite !shim_new_typedefs_spec. unfold shim_type.
  split; intros (_ & _ & _ & ->) (_ & _ & _ & ->); simpl.
  - by case_decide.
  - done.
Qed.

Lemma shim_signed_unsigned_pairs_witness :
  is_signed TULong = false ∧ is_signed TLong = true
  ∧ bits LLP64 TULong = bits LLP64 TLong.
Proof.
  apply (proj1 (shim_signed_unsigned_pairs LLP64 fresh_lp64_env TULong TLong)).
  - vm_compute. left.
  - vm_compute. right. left.
Defined.

(** X7. Where the shim declares [size_t] and [__LP64__] is defined exactly
    on LP64 targets, the width of the declared [size_t] is the width of a
    pointer on the 32-bit and on the LP64 targets, and is not on 64-bit
    Windows (LLP64), where [size_t] gets 32 bits. *)
Theorem shim_size_t_pointer_width (dm : data_model) (e : env) (t : ctype) :
  lp64_macro_agrees dm e →
  ("size_t", t) ∈ new_typedefs types_workaround_h e →
  (bits dm t = pointer_bits dm ↔ dm ≠ LLP64)
  ∧ (dm = LLP64 → bits dm t = 32).
Proof.
  intros Hlp Hd. apply shim_new_typedefs_spec in Hd as (_ & _ & _ & ->).
  unfold shim_type. simpl. destruct (decide ("__LP64__" ∈ macros e)) as [Hyes|Hno].
  - apply Hlp in Hyes as ->. by split.
  - destruct dm; simpl; [by split | split; [split; [discriminate | done] | done] |].
    exfalso. by apply Hno, Hlp.
Qed.

Lemma shim_size_t_pointer_width_witness :
  (bits LLP64 TUInt = pointer_bits LLP64 ↔ LLP64 ≠ LLP64)
  ∧ (LLP64 = LLP64 → bits LLP64 TUInt = 32).
Proof.
  apply (shim_size_t_pointer_width LLP64 empty_env TUInt).
  - split; [vm_compute; discriminate | discriminate].
  - vm_compute. left.
Defined.

(** ** The shim and the headers read after it *)



(** X9. After a first reading of the shim, a header that declares a name
    under the guard [_SIZE_T_DEFINED] is skipped, whereas a header that
    declares [uint32_t] under the guard [_STDINT_H] is still read when
    [_STDINT_H] was undefined before the shim: its declaration is added, and
    it is reported as a redefinition exactly when its type is not the
    [unsigned int] of the shim. *)
Theorem shim_then_guarded_header (e : env) (t : ctype) (name : string) :
  "TYPES_WORKAROUND_H" ∉ macros e →
  (new_typedefs (guarded_typedef "_SIZE_T_DEFINED" t name) (types_workaround_h e) = []
   ∧ new_diags (guarded_typedef "_SIZE_T_DEFINED" t name) (types_workaround_h e) = [])
  ∧ ("_STDINT_H" ∉ macros e →
     lookup_typedef "uint32_t" (typedefs e) = None →
     new_typedefs (guarded_typedef "_STDINT_H" t "uint32_t") (types_workaround_h e)
     = [("uint32_t", t)]
     ∧ new_diags (guarded_typedef "_STDINT_H" t "uint32_t") (types_workaround_h e)
       = if decide (TUInt = t) then []
         else [TypedefRedefinition "uint32_t" TUInt t]).
Proof.
  intros Hin. split.
  - assert (Hsz : "_SIZE_T_DEFINED" ∈ macros (types_workaround_h e))
      by (apply shim_macros_spec; eauto).
    unfold new_typedefs, new_diags, guarded_typedef, ifndef.
    rewrite decide_True by done. by rewrite !drop_all.
  - intros Hsi Hnone.
    assert (Hg : "_STDINT_H" ∉ macros (types_workaround_h e)).
    { rewrite shim_macros_spec. intuition discriminate. }
    assert (Hl : lookup_typedef "uint32_t" (typedefs (types_workaround_h e)) = Some TUInt).
    { rewrite shim_first_time by done. simpl.
      rewrite lookup_typedef_app, Hnone.
      unfold shim_decls, size_decls, stdint_decls.
      rewrite (decide_False (P := "_STDINT_H" ∈ macros e)) by done.
      by repeat case_decide. }
    unfold new_typedefs, new_diags, guarded_typedef, ifndef, seq.
    rewrite decide_False by done. rewrite typedef_unfold. simpl.
    rewrite !drop_app_length. unfold clash_of. simpl. by rewrite Hl.
Qed.

Lemma shim_then_guarded_header_witness :
  (new_typedefs (guarded_typedef "_SIZE_T_DEFINED" TULongLong "size_t")
     (types_workaround_h empty_env) = []
   ∧ new_diags (guarded_typedef "_SIZE_T_DEFINED" TULongLong "size_t")
       (types_workaround_h empty_env) = [])
  ∧ new_typedefs (guarded_typedef "_STDINT_H" TULong "uint32_t")
      (types_workaround_h empty_env) = [("uint32_t", TULong)]
  ∧ new_diags (guarded_typedef "_STDINT_H" TULong "uint32_t")
      (types_workaround_h empty_env)
    = [TypedefRedefinition "uint32_t" TUInt TULong].
Proof.
  assert (Hin : "TYPES_WORKAROUND_H" ∉ macros empty_env) by (vm_compute; discriminate).
  split.
  - apply (proj1 (shim_then_guarded_header empty_env TULongLong "size_t" Hin)).
  - apply (proj2 (shim_then_guarded_header empty_env TULong "uint32_t" Hin));
      [vm_compute; discriminate | reflexivity].
Defined.

(** ** wrapper.h and the host *)

Lemma keeps_going_define m : keeps_going (define m).
Proof. by intros e. Qed.

Lemma keeps_going_typedef t name : keeps_going (typedef t name).
Proof.
  intros e Hh. rewrite typedef_unfold. unfold halted in *. simpl.
  rewrite existsb_app, Hh. unfold clash_of. simpl.
  destruct (lookup_typedef name (typedefs e)); [by case_decide | done].
Qed.

Lemma keeps_going_seq (a b : Header) :
  keeps_going a → keeps_going b → keeps_going (a ;; b)%hdr.
Proof. intros Ha Hb e Hh. unfold seq. by apply Hb, Ha. Qed.

Lemma keeps_going_ifndef m body : keeps_going body → keeps_going (ifndef m body).
Proof. intros Hb e Hh. unfold ifndef. case_decide; [done | by apply Hb]. Qed.

Lemma effects_app h incs incs' e :
  effects h (incs ++ incs') e = effects h incs' (effects h incs e).
Proof. unfold effects. apply foldl_app. Qed.

Lemma effects_keep_going h incs e :
  (∀ i, i ∈ incs → ∃ body, resolve h i.1 i.2 = Some body ∧ keeps_going body) →
  halted e = false → halted (effects h incs e) = false.
Proof.
  revert e. induction incs as [|i incs IH]; intros e Hall Hh; [done|].
  rewrite effects_cons. apply IH; [intros j Hj; apply Hall; by right|].
  destruct (Hall i) as (body & Hres & Hgo); [left|].
  rewrite (include_effect_found h _ _ body) by done. by apply Hgo.
Qed.

(** X10. The reading of wrapper.h stops at the first of its five
    [#include] lines whose file is not found: when the files of the lines
    before it are found and report no fatal error themselves, the state after
    wrapper.h is the state after those files with the one file-not-found
    error added, and the lines after it are not read, whatever the host holds
    for them. *)
Theorem wrapper_stops_at_first_missing
    (h : host) (u : tu) (before after : list (include_form * string))
    (inc : include_form * string) :
  wrapper_includes = before ++ inc :: after →
  halted (tu_env u) = false →
  (∀ i, i ∈ before → ∃ body, resolve h i.1 i.2 = Some body ∧ keeps_going body) →
  resolve h inc.1 inc.2 = None →
  tu_env (wrapper_h h u)
  = report (FileNotFound inc.2) (effects h before (tu_env u))
  ∧ halted (tu_env (wrapper_h h u)) = true.
Proof.
  intros Hsplit Hh Hbefore Hnone.
  assert (Hmid : halted (effects h before (tu_env u)) = false)
    by (by apply effects_keep_going).
  assert (Hend : tu_env (wrapper_h h u)
                 = report (FileNotFound inc.2) (effects h before (tu_env u))).
  { rewrite wrapper_env, Hsplit, effects_app, effects_cons.
    rewrite include_effect_missing by done.
    apply effects_halted, halted_report_missing. }
  split; [done|]. rewrite Hend. apply halted_report_missing.
Qed.

Lemma wrapper_stops_at_first_missing_witness :
  tu_env (wrapper_h partial_host (start empty_env))
  = report (FileNotFound "stdint.h")
      (effects partial_host [(Angled, "stddef.h"); (Angled, "stdbool.h")] empty_env)
  ∧ halted (tu_env (wrapper_h partial_host (start empty_env))) = true.
Proof.
  apply (wrapper_stops_at_first_missing partial_host (start empty_env)
           [(Angled, "stddef.h"); (Angled, "stdbool.h")]
           [(Angled, "sys/types.h"); (Quoted, "BinderBindings.hpp")]
           (Angled, "stdint.h")).
  - reflexivity.
  - reflexivity.
  - intros i Hi. rewrite !elem_of_cons, elem_of_nil in Hi.
    destruct Hi as [->|[->|[]]].
    + exists stddef_h. split; [reflexivity|].
      apply keeps_going_ifndef, keeps_going_seq;
        [apply keeps_going_define | apply keeps_going_typedef].
    + exists stdbool_h. split; [reflexivity|].
      apply keeps_going_ifndef, keeps_going_seq; apply keeps_going_define.
  - reflexivity.
Defined.

(** X11. wrapper.h reads the host through the system copies of [stddef.h],
    [stdbool.h], [stdint.h] and [sys/types.h] and through the file that
    ["BinderBindings.hpp"] resolves to, the local one if there is one and the
    system one otherwise; two hosts that agree on these give the same result,
    whatever other files they hold, local files named like the standard
    headers included. *)
Theorem wrapper_host_dependence (h h' : host) (u : tu) :
  (∀ f, f ∈ standard_headers → system_headers h f = system_headers h' f) →
  resolve h Quoted "BinderBindings.hpp" = resolve h' Quoted "BinderBindings.hpp" →
  wrapper_h h u = wrapper_h h' u
  ∧ (local_headers h "BinderBindings.hpp" = None →
     resolve h Quoted "BinderBindings.hpp" = system_headers h "BinderBindings.hpp").
Proof.
  intros Hstd Hvendor. split.
  - assert (Hext : ∀ form file, resolve h form file = resolve h' form file →
                     include_effect h form file = include_effect h' form file).
    { intros form file Hres. unfold include_effect. by rewrite Hres. }
    assert (Hsys : ∀ f, f ∈ standard_headers →
                     include_effect h Angled f = include_effect h' Angled f).
    { intros f Hf. apply Hext. simpl. by apply Hstd. }
    unfold wrapper_h, seq, include.
    rewrite (Hext Quoted "BinderBindings.hpp" Hvendor).
    by rewrite !Hsys by (unfold standard_headers; rewrite !elem_of_cons; tauto).
  - intros Hnone. unfold resolve. by rewrite Hnone.
Qed.

Lemma wrapper_host_dependence_witness :
  wrapper_h guarded_host (start empty_env)
  = wrapper_h (Host (system_headers guarded_host)
                    (λ f, if decide (f = "stddef.h") then Some unguarded_vendor_hpp
                          else local_headers guarded_host f))
              (start empty_env).
Proof.
  apply (wrapper_host_dependence guarded_host
           (Host (system_headers guarded_host)
                 (λ f, if decide (f = "stddef.h") then Some unguarded_vendor_hpp
                       else local_headers guarded_host f))
           (start empty_env)).
  - intros f _. reflexivity.
  - reflexivity.
Defined.

(** X12. The declarations the shim makes depend on the state only through
    which of the four macros [TYPES_WORKAROUND_H], [_SIZE_T_DEFINED],
    [__LP64__] and [_STDINT_H] are defined: it never looks at the names already
    declared, so two states that agree on these four macros get the same
    declarations from it. *)
Theorem shim_reads_only_macros (e e' : env) :
  (∀ m, m ∈ ["TYPES_WORKAROUND_H"; "_SIZE_T_DEFINED"; "__LP64__"; "_STDINT_H"] →
        m ∈ macros e ↔ m ∈ macros e') →
  new_typedefs types_workaround_h e = new_typedefs types_workaround_h e'.
Proof.
  intros Hagree.
  assert (Hm : ∀ m, m ∈ ["TYPES_WORKAROUND_H"; "_SIZE_T_DEFINED"; "__LP64__"; "_STDINT_H"] →
                    m ∈ macros e' ↔ m ∈ macros e).
  { intros m Hin. symmetry. by apply Hagree. }
  destruct (decide ("TYPES_WORKAROUND_H" ∈ macros e)) as [Hin|Hin].
  - rewrite !shim_new_typedefs_skipped; [done | | done].
    apply Hagree; [|done]. rewrite !elem_of_cons. tauto.
  - rewrite !shim_new_typedefs; [| | done].
    + unfold shim_decls.
      rewrite (size_decls_ext e e'), (stdint_decls_ext e e');
        [done | apply Hm; rewrite !elem_of_cons; tauto..].
    + intros Hin'. apply Hin, Hagree; [|done]. rewrite !elem_of_cons. tauto.
Qed.

Lemma shim_reads_only_macros_witness :
  new_typedefs types_workaround_h empty_env
  = new_typedefs types_workaround_h foreign_size_t_env.
Proof.
  apply (shim_reads_only_macros empty_env foreign_size_t_env).
  intros m _. reflexivity.
Defined.
